(** * Polynomial least squares of [Tutorials/overfitting_regularization.ipynb]

    The notebook defines three functions on NumPy arrays:
    [polynomial_fit], [polynomial_fit_reg] and [rms_error].  This file
    embeds them and proves the properties the specification states
    about them.

    Number model.  NumPy computes in IEEE binary64.  Here a float is an
    element of an arbitrary real closed field [R] and every operation is
    exact, so "equal within floating-point tolerance" reads as equality.
    Rounding, overflow and the relative cut-off [rcond] of
    [np.linalg.pinv] are outside the model.

    Array model.  A one-dimensional array is a [seq R]; a two-dimensional
    array of shape (m, n) is a matrix ['M[R]_(m, n)].  The shape checks
    NumPy performs at run time ([np.dot], broadcasting) are kept: they
    are the only places where the three functions can raise. *)

From HB Require Import structures.
From mathcomp Require Import boot order algebra.
From mathcomp Require Import algC.

Set Implicit Arguments.
Unset Strict Implicit.
Unset Printing Implicit Defensive.

Import GRing.Theory Num.Theory Order.POrderTheory Order.TotalTheory.
Local Open Scope ring_scope.

(** ** Outcomes of a Python call *)

(** [ValueError] is what NumPy raises on a shape mismatch.  [InvalidInput]
    is the error class the specification asks implementers to define; no
    path of the notebook constructs it. *)
Inductive pyerror : Type := ValueError | InvalidInput.

Inductive pyresult (T : Type) : Type :=
| Returned of T
| Raised of pyerror.

Arguments Raised {T} _.

Definition pybind (S T : Type) (r : pyresult S) (k : S -> pyresult T) :
  pyresult T :=
  match r with
  | Returned v => k v
  | Raised e => Raised e
  end.

Notation "'let!' x ':=' r 'in' k" := (pybind r (fun x => k))
  (at level 200, x name, r at level 100, k at level 200,
   format "'[v' 'let!'  x  ':='  r  'in' '/' k ']'").

(** ** The Moore-Penrose pseudo-inverse, [np.linalg.pinv] *)

Section Model.

Variable R : rcfType.

(** The four Penrose equations: [P] is a pseudo-inverse of [A]. *)
Definition penrose m n (A : 'M[R]_(m, n)) (P : 'M[R]_(n, m)) : Prop :=
  [/\ A *m P *m A = A,
      P *m A *m P = P,
      (A *m P)^T = A *m P &
      (P *m A)^T = P *m A].

(** NumPy obtains the pseudo-inverse from a singular value decomposition.
    In exact arithmetic the same matrix comes out of a full-rank
    factorisation [A = C *m B]: [B^T (B B^T)^-1 (C^T C)^-1 C^T]. *)
Definition pinv m n (A : 'M[R]_(m, n)) : 'M[R]_(n, m) :=
  let C := col_base A in
  let B := row_base A in
  B^T *m invmx (B *m B^T) *m invmx (C^T *m C) *m C^T.

(** ** The NumPy operations the notebook calls *)

(** [X.reshape(-1, 1)]: a one-dimensional array as a column. *)
Definition reshape_col (X : seq R) : 'cV[R]_(size X) := \col_i nth 0 X i.

(** [np.arange(0, M+1).reshape(1, -1)]: the exponents 0..M as a row. *)
Definition arange_row (M : nat) : 'rV[nat]_(M.+1) := \row_j (j : nat).

(** [np.power(c, e)] for a column [c] of shape (m, 1) and a row [e] of
    shape (1, n): broadcasting gives the (m, n) array of all powers.
    [x ^+ 0 = 1] also at [x = 0], as in NumPy. *)
Definition np_power m n (c : 'cV[R]_m) (e : 'rV[nat]_n) : 'M[R]_(m, n) :=
  \matrix_(i, j) c i 0 ^+ e 0 j.

(** [np.eye(n)] *)
Definition np_eye n : 'M[R]_n := \matrix_(i, j) (i == j)%:R.

(** [np.dot] on two-dimensional operands: the inner dimensions must
    agree, otherwise NumPy raises [ValueError]. *)
Definition np_dot m n k p (A : 'M[R]_(m, n)) (B : 'M[R]_(k, p)) :
  pyresult 'M[R]_(m, p) :=
  match n =P k with
  | ReflectT e => Returned (A *m castmx (esym e, erefl p) B)
  | ReflectF _ => Raised ValueError
  end.

(** [W.ravel()]: the entries in row-major order. *)
Definition ravel m n (A : 'M[R]_(m, n)) : seq R :=
  flatten [seq [seq A i j | j <- enum 'I_n] | i <- enum 'I_m].

(** Element-wise binary operation on one-dimensional arrays with NumPy's
    broadcasting rule: equal lengths, or one operand of length 1. *)
Definition broadcast2 (f : R -> R -> R) (a b : seq R) : pyresult (seq R) :=
  if size a == size b then Returned [seq f ab.1 ab.2 | ab <- zip a b]
  else if a is [:: x] then Returned [seq f x y | y <- b]
  else if b is [:: y] then Returned [seq f x y | x <- a]
  else Raised ValueError.

(** [np.trim_zeros(c, 'f')]: drop the leading zeros. *)
Definition trim_zeros_f (c : seq R) : seq R :=
  drop (find (fun x => x != 0) c) c.

(** [np.poly1d(W)]: the stored coefficients, highest degree first; an
    all-zero or empty list is stored as [[0.]]. *)
Definition poly1d (W : seq R) : seq R :=
  let c := trim_zeros_f W in
  if nilp c then [:: 0] else c.

(** [np.polyval(p, x)] at one point: the loop [y = y * x + pv]. *)
Definition polyval (p : seq R) (x : R) : R :=
  foldl (fun y pv => y * x + pv) 0 p.

(** [p(X)] for a [poly1d] object [p] and an array [X]. *)
Definition poly1d_call (p : seq R) (X : seq R) : seq R :=
  [seq polyval p x | x <- X].

(** ** The notebook's functions *)

(** The design matrix both solvers build:
    [np.power(X.reshape(-1,1), np.arange(0,M+1).reshape(1,-1))]. *)
Definition design_matrix (X : seq R) (M : nat) : 'M[R]_(size X, M.+1) :=
  np_power (reshape_col X) (arange_row M).

Definition polynomial_fit (X T : seq R) (M : nat) : pyresult (seq R) :=
  let A := design_matrix X M in
  let T := reshape_col T in
  let! W := np_dot (pinv A) T in
  Returned (ravel W).

(** [(T - T_fit)**2 / T.size] divides every element by the length of
    [T].  When [T] is empty so is the array that is divided
    ([broadcast2_nil] below), hence no element is ever divided by 0;
    the radicand is a sum of squares over a positive count, never
    negative. *)
Definition rms_error (X T W : seq R) : pyresult R :=
  let p := poly1d W in
  let T_fit := poly1d_call p X in
  let! D := broadcast2 (fun t y => t - y) T T_fit in
  let E := Num.sqrt (\sum_(e <- [seq d ^+ 2 / (size T)%:R | d <- D]) e) in
  Returned E.

Definition polynomial_fit_reg (X T : seq R) (M : nat) (lamb : R) :
  pyresult (seq R) :=
  let N := size X in
  let A := design_matrix X M in
  let lambda_matrix := (lamb * N%:R) *: np_eye M.+1 in
  let T := reshape_col T in
  let! AtA := np_dot A^T A in
  let aux := AtA + lambda_matrix in
  let aux := pinv aux in
  let! aux2 := np_dot A^T T in
  let! W := np_dot aux aux2 in
  Returned (ravel W).

(** ** Vocabulary of the specification *)


(** The polynomial with coefficients [W], highest degree first (the order
    [np.poly1d] and therefore [rms_error] expect). *)
Definition poly_desc (W : seq R) (x : R) : R :=
  \sum_(0 <= k < size W) nth 0 W k * x ^+ ((size W).-1 - k).

Definition mean (T : seq R) : R := (\sum_(t <- T) t) / (size T)%:R.


(** Euclidean norm of a coefficient vector. *)
Definition norm2 (W : seq R) : R := Num.sqrt (\sum_(w <- W) w ^+ 2).

(** Plain root mean square error, as the specification words it:
    the square root of [1/N] times the sum of squared residuals. *)
Definition spec_rms (X T W : seq R) : R :=
  Num.sqrt ((size X)%:R^-1
            * \sum_(xt <- zip X T) (poly_desc W xt.1 - xt.2) ^+ 2).

(** The other reading the specification warns against: the factor
    [2/N] under the square root. *)
Definition cost_rms (X T W : seq R) : R :=
  Num.sqrt (2 / (size X)%:R
            * \sum_(xt <- zip X T) (poly_desc W xt.1 - xt.2) ^+ 2).

(** A list as a column of height [n]; [reshape_col X] is
    [colvec (size X) X]. *)
Definition colvec n (V : seq R) : 'cV[R]_n := \col_i nth 0 V i.

(** Inner product and squared Euclidean norm of columns. *)
Definition dotc n (u v : 'cV[R]_n) : R := \sum_i u i 0 * v i 0.

Definition sqn n (v : 'cV[R]_n) : R := dotc v v.

(** The design matrix as section 4.1 of the specification words it:
    entry (i, j) is the i-th input raised to the power j. *)
Definition spec_design (X : seq R) (M : nat) : 'M[R]_(size X, M.+1) :=
  \matrix_(i, j) nth 0 X i ^+ j.

(** The ridge solution as section 4.3 of the specification words it:
    pseudo-invert [A^T A + lambda N I] and multiply by [A^T T]. *)
Definition ridge_solution (X T : seq R) (M : nat) (lamb : R) :
  'cV[R]_(M.+1) :=
  let A := spec_design X M in
  pinv (A^T *m A + (lamb * (size X)%:R) *: 1%:M)
  *m (A^T *m colvec (size X) T).

(** The rows of a two-dimensional array as nested lists. *)
Definition tolist m n (A : 'M[R]_(m, n)) : seq (seq R) :=
  [seq [seq A i j | j <- enum 'I_n] | i <- enum 'I_m].

End Model.

(** ** Sample sets

    The scenarios of section 8 of the specification, over the field of
    real algebraic numbers: two points on the line [y = x], three
    points on the parabola [y = x^2], and the empty sample set. *)

Definition line_X : seq algR := [:: 0; 1].
Definition line_T : seq algR := [:: 0; 1].
Definition parabola_X : seq algR := [:: 0%:R; 1%:R; 2%:R].
Definition parabola_T : seq algR := [:: 0%:R; 1%:R; 4%:R].
Definition no_samples : seq algR := [::].

(** ** The script around the three functions *)

Section Script.

Variable R : rcfType.


(** [np.argmin] of a one-dimensional array: the index of the first
    smallest entry, [ValueError] on an empty one.  [argmin_from] is the
    scan: [best] at index [besti] is the smallest entry seen so far and
    [i] is the index of the head of [v]. *)
Fixpoint argmin_from (besti : nat) (best : R) (i : nat) (v : seq R) : nat :=
  match v with
  | [::] => besti
  | x :: v' =>
      if x < best then argmin_from i x i.+1 v'
      else argmin_from besti best i.+1 v'
  end.

Definition np_argmin (v : seq R) : pyresult nat :=
  match v with
  | [::] => Raised ValueError
  | x :: v' => Returned (argmin_from 0 x 1 v')
  end.

(** The loop [for M in m] of the model-selection cell: for each degree,
    fit on the train set, reverse the coefficients, score on the train
    and on the validation set, append both scores. *)
Fixpoint error_sweep (x_train y_train x_val y_val : seq R) (m : seq nat) :
  pyresult (seq R * seq R) :=
  match m with
  | [::] => Returned ([::], [::])
  | M :: m' =>
      let! W := polynomial_fit x_train y_train M in
      let W := rev W in
      let! error_train := rms_error x_train y_train W in
      let! error_val := rms_error x_val y_val W in
      let! rest := error_sweep x_train y_train x_val y_val m' in
      Returned (error_train :: rest.1, error_val :: rest.2)
  end.

(** The rest of that cell, with [m = range(K)] (the notebook has
    [K = 10]): the index of the smallest validation error is used as the
    degree, the model is fitted again and scored on the test set. *)
Definition model_selection
  (x_train y_train x_val y_val x_test y_test : seq R) (K : nat) :
  pyresult (nat * R) :=
  let! errors := error_sweep x_train y_train x_val y_val (iota 0 K) in
  let val := errors.2 in
  let! best_M := np_argmin val in
  let! W := polynomial_fit x_train y_train best_M in
  let W := rev W in
  let! test_error := rms_error x_test y_test W in
  Returned (best_M, test_error).

(** What [polynomial_fit] returns on arrays of equal length
    ([polynomial_fitE] below), and the score [rms_error] gives on a
    sample set [(xs, ys)] to the degree-[M] fit of the train set, with
    the coefficients reversed as the notebook does. *)
Definition fit_coefs (X T : seq R) (M : nat) : seq R :=
  ravel (pinv (design_matrix X M) *m colvec (size X) T).

Definition fit_score (x_train y_train xs ys : seq R) (M : nat) : R :=
  spec_rms xs ys (rev (fit_coefs x_train y_train M)).

(** The right-hand side [A^T T] of the normal equations as a list: entry
    [j] is the sum of [x^j * t] over the samples. *)
Definition moments (X T : seq R) (M : nat) : seq R :=
  [seq \sum_(xt <- zip X T) xt.1 ^+ j * xt.2 | j <- iota 0 M.+1].


End Script.

(** The split cell.  [indexes] is the array after [np.random.shuffle];
    the three index sets are the sorted slices [indexes[:train_size]],
    [indexes[train_size : train_size + val_size]] and
    [indexes[-test_size:]]. *)

(** [a[-k:]]: the last [k] entries, and the whole array when [k = 0]
    (Python reads [-0] as [0]). *)
Definition slice_last (T : Type) (k : nat) (a : seq T) : seq T :=
  if k == 0%N then a else drop (size a - k) a.

(** [a[i:j]] for non-negative [i] and [j]; Python clips both ends. *)
Definition slice (T : Type) (i j : nat) (a : seq T) : seq T :=
  take (j - i) (drop i a).

Definition split_indexes (indexes : seq nat)
  (train_size val_size test_size : nat) : seq nat * seq nat * seq nat :=
  (sort leq (slice 0 train_size indexes),
   sort leq (slice train_size (train_size + val_size) indexes),
   sort leq (slice_last test_size indexes)).

(** * Properties of the pseudo-inverse *)

Section PseudoInverse.

Variable R : rcfType.

(** A matrix whose Gram matrix vanishes is zero: the diagonal of
    [A *m A^T] holds the sums of squares of the rows. *)
Lemma gram_eq0 m n (A : 'M[R]_(m, n)) : A *m A^T = 0 -> A = 0.
Proof.
move=> AA0; apply/matrixP => i j; rewrite [RHS]mxE.
have /eqP : (A *m A^T) i i = 0 by rewrite AA0 mxE.
rewrite mxE psumr_eq0 => [k _|]; first by rewrite mxE -expr2 sqr_ge0.
by move=> /allP /(_ j); rewrite mem_index_enum mxE -expr2 sqrf_eq0
  => /(_ isT) /eqP.
Qed.

Lemma gram_tr_eq0 m n (A : 'M[R]_(m, n)) : A^T *m A = 0 -> A = 0.
Proof.
by move=> AA0; apply: trmx_inj; rewrite trmx0; apply: gram_eq0; rewrite trmxK.
Qed.

(** Cancelling a Gram factor: [A^T A X = 0] forces [A X = 0]. *)
Lemma gram_cancel m n p (A : 'M[R]_(m, n)) (X : 'M[R]_(n, p)) :
  A^T *m A *m X = 0 -> A *m X = 0.
Proof.
move=> AAX0; apply: gram_tr_eq0.
by rewrite trmx_mul -mulmxA [A^T *m _]mulmxA AAX0 mulmx0.
Qed.

Lemma gram_unit_free m n (B : 'M[R]_(m, n)) :
  row_free B -> B *m B^T \in unitmx.
Proof.
move=> freeB; rewrite -row_free_unit; apply: inj_row_free => v vBB0.
have /eqP : v *m B = 0.
  by apply: gram_eq0; rewrite trmx_mul mulmxA -[v *m B *m _]mulmxA vBB0 mul0mx.
by rewrite mulmx_free_eq0 // => /eqP.
Qed.

Lemma gram_unit_full m n (C : 'M[R]_(m, n)) :
  row_full C -> C^T *m C \in unitmx.
Proof.
move=> fullC; rewrite -{2}[C]trmxK; apply: gram_unit_free.
by rewrite /row_free mxrank_tr.
Qed.

Lemma trmx_gram m n (A : 'M[R]_(m, n)) : (A^T *m A)^T = A^T *m A.
Proof. by rewrite trmx_mul trmxK. Qed.

Lemma trmx_gramr m n (A : 'M[R]_(m, n)) : (A *m A^T)^T = A *m A^T.
Proof. by rewrite trmx_mul trmxK. Qed.

Lemma trmx_invmx_sym n (S : 'M[R]_n) : S^T = S -> (invmx S)^T = invmx S.
Proof. by move=> symS; rewrite trmx_inv symS. Qed.

(** The product formula satisfies the Penrose equations for any
    factorisation into a factor of full column rank and one of full row
    rank. *)
Lemma penrose_factors m r n (C : 'M[R]_(m, r)) (B : 'M[R]_(r, n)) :
  row_full C -> row_free B ->
  penrose (C *m B) (B^T *m invmx (B *m B^T) *m invmx (C^T *m C) *m C^T).
Proof.
move=> /gram_unit_full uC /gram_unit_free uB.
set iB := invmx (B *m B^T); set iC := invmx (C^T *m C).
have AP : C *m B *m (B^T *m iB *m iC *m C^T) = C *m iC *m C^T.
  by rewrite !mulmxA -[C *m B *m _]mulmxA mulmxK.
have PA : B^T *m iB *m iC *m C^T *m (C *m B) = B^T *m iB *m B.
  by rewrite !mulmxA -[_ *m C^T *m C]mulmxA mulmxKV.
split.
- by rewrite AP !mulmxA -[_ *m C^T *m C]mulmxA mulmxKV.
- by rewrite PA !mulmxA -[_ *m B *m B^T]mulmxA mulmxKV.
- by rewrite AP !trmx_mul trmxK trmx_invmx_sym ?trmx_gram // mulmxA.
- by rewrite PA !trmx_mul trmxK trmx_invmx_sym ?trmx_gramr // mulmxA.
Qed.

Lemma pinvP m n (A : 'M[R]_(m, n)) : penrose A (pinv A).
Proof.
rewrite -{1}[A]mulmx_base.
exact: penrose_factors (col_base_full A) (row_base_free A).
Qed.

(** The Penrose equations determine the pseudo-inverse. *)
Lemma penrose_uniq m n (A : 'M[R]_(m, n)) (X Y : 'M[R]_(n, m)) :
  penrose A X -> penrose A Y -> X = Y.
Proof.
move=> [AXA XAX symAX symXA] [AYA YAY symAY symYA].
have X1 : X = X *m X^T *m A^T.
  by rewrite -mulmxA -trmx_mul symAX mulmxA XAX.
have A1 : A^T = A^T *m A *m Y.
  by rewrite -mulmxA -[A *m Y]symAY -trmx_mul AYA.
have Y1 : Y = A^T *m Y^T *m Y.
  by rewrite -trmx_mul symYA YAY.
have A2 : A^T = X *m A *m A^T.
  by rewrite -{1}symXA -trmx_mul mulmxA AXA.
rewrite {1}X1 {1}A1 !mulmxA -X1 {2}Y1 {1}A2.
by rewrite -!mulmxA [A^T *m _]mulmxA -Y1.
Qed.

Lemma pinv_uniq m n (A : 'M[R]_(m, n)) (X : 'M[R]_(n, m)) :
  penrose A X -> pinv A = X.
Proof. by move=> pX; apply: penrose_uniq pX; apply: pinvP. Qed.

Lemma pinv_tr m n (A : 'M[R]_(m, n)) : pinv A^T = (pinv A)^T.
Proof.
have [APA PAP symAP symPA] := pinvP A.
apply: pinv_uniq; split.
- by rewrite -!trmx_mul mulmxA APA.
- by rewrite -!trmx_mul mulmxA PAP.
- by rewrite -trmx_mul symPA.
- by rewrite -trmx_mul symAP.
Qed.

(** On an invertible matrix the pseudo-inverse is the inverse. *)
Lemma pinv_unit n (A : 'M[R]_n) : A \in unitmx -> pinv A = invmx A.
Proof.
move=> uA; apply: pinv_uniq; split.
- by rewrite mulmxV // mul1mx.
- by rewrite mulVmx // mul1mx.
- by rewrite mulmxV // trmx1.
- by rewrite mulVmx // trmx1.
Qed.

(** The fitted value [pinv A *m T] solves the normal equations. *)
Lemma normal_pinv m n (A : 'M[R]_(m, n)) : A^T *m A *m pinv A = A^T.
Proof.
have [APA _ symAP _] := pinvP A.
by rewrite -mulmxA -symAP -trmx_mul APA.
Qed.

(** [pinv A = pinv (A^T A) A^T]: the normal-equation form of the
    pseudo-inverse, valid without any rank assumption. *)
Lemma pinv_gram m n (A : 'M[R]_(m, n)) :
  pinv (A^T *m A) *m A^T = pinv A.
Proof.
set G := A^T *m A; apply/esym/pinv_uniq.
have symP : (pinv G)^T = pinv G by rewrite -pinv_tr trmx_gram.
have := pinvP G; move: (pinv G) symP => P symP [GPG PGP symGP symPG].
have AGG : A *m P *m G = A.
  apply/eqP; rewrite -subr_eq0 -mulmxA -{2}[A]mulmx1 -mulmxBr; apply/eqP.
  by apply: gram_cancel; rewrite mulmxBr mulmx1 mulmxA GPG subrr.
split.
- by rewrite mulmxA -[_ *m A^T *m A]mulmxA.
- by rewrite -[_ *m A^T *m A]mulmxA mulmxA PGP.
- by rewrite !trmx_mul trmxK symP mulmxA.
- by rewrite -mulmxA.
Qed.


End PseudoInverse.

(** * Arrays: shape checks, flattening, the design matrix *)

Section Arrays.

Variable R : rcfType.

Lemma np_dotE m n p (A : 'M[R]_(m, n)) (B : 'M[R]_(n, p)) :
  np_dot A B = Returned (A *m B).
Proof.
rewrite /np_dot; case: eqP => // e.
by rewrite (eq_axiomK e) castmx_id.
Qed.


Lemma np_eyeE n : np_eye R n = 1%:M.
Proof. by apply/matrixP => i j; rewrite !mxE. Qed.

Lemma design_matrixE (X : seq R) M i j :
  design_matrix X M i j = nth 0 X i ^+ j.
Proof. by rewrite !mxE. Qed.

Lemma map_enum_ord (T : Type) (f : nat -> T) n :
  [seq f (val i) | i <- enum 'I_n] = mkseq f n.
Proof. by rewrite (map_comp f val) val_enum_ord. Qed.

Lemma tolist_design (X : seq R) M :
  tolist (design_matrix X M) = [seq [seq x ^+ j | j <- iota 0 M.+1] | x <- X].
Proof.
rewrite /tolist.
under eq_map => i.
  under eq_map => j do rewrite design_matrixE.
  rewrite (map_enum_ord (fun j => nth 0 X i ^+ j)) /mkseq; over.
rewrite (map_enum_ord (fun i => [seq nth 0 X i ^+ j | j <- iota 0 M.+1])).
apply: (@eq_from_nth _ [::]); rewrite size_mkseq ?size_map // => i ltiX.
by rewrite nth_mkseq // (nth_map 0).
Qed.

Lemma ravel_col n (W : 'cV[R]_n) : ravel W = [seq W i 0 | i <- enum 'I_n].
Proof.
rewrite /ravel enum_ordSl enum_ord0 /=.
by elim: (enum 'I_n) => //= i s ->.
Qed.

Lemma size_ravel_col n (W : 'cV[R]_n) : size (ravel W) = n.
Proof. by rewrite ravel_col size_map size_enum_ord. Qed.

Lemma nth_ravel_col n (W : 'cV[R]_n) (i : 'I_n) : nth 0 (ravel W) i = W i 0.
Proof.
by rewrite ravel_col (nth_map i) ?size_enum_ord // nth_ord_enum.
Qed.

Lemma ravel_col0 n : ravel (0 : 'cV[R]_n) = nseq n 0.
Proof.
apply: (@eq_from_nth _ 0); rewrite size_ravel_col ?size_nseq // => i ltin.
by rewrite (nth_ravel_col _ (Ordinal ltin)) mxE nth_nseq ltin.
Qed.

(** C4.  The design matrix of [X] at degree [M] has shape
    (size X, M+1) -- this is its type -- and its entry (i, j) is
    [x_i ^ j]; column 0 is all ones; row by row it lists the powers
    0..M of each input; on [X = [2, 3]], [M = 2] it is
    [[1, 2, 4], [1, 3, 9]]. *)
Theorem design_matrix_spec :
  [/\ forall (X : seq R) M (i : 'I_(size X)) (j : 'I_M.+1),
        design_matrix X M i j = nth 0 X i ^+ j,
      forall (X : seq R) M (i : 'I_(size X)), design_matrix X M i ord0 = 1,
      forall (X : seq R) M,
        tolist (design_matrix X M)
        = [seq [seq x ^+ j | j <- iota 0 M.+1] | x <- X]
    & tolist (design_matrix [:: 2; 3] 2)
      = [:: [:: 1; 2; 4]; [:: 1; 3; 9]] :> seq (seq R)].
Proof.
split=> [X M i j|X M i|X M|]; rewrite ?design_matrixE ?expr0 //.
  exact: tolist_design.
rewrite tolist_design /= !expr0 !expr1 !expr2 -!natrM.
by [].
Qed.

End Arrays.

(** * The RMS error evaluator *)

Section RmsError.

Variable R : rcfType.
Implicit Types X T W : seq R.

Lemma polyval_rcons (p : seq R) c x :
  polyval (rcons p c) x = polyval p x * x + c.
Proof. by rewrite /polyval foldl_rcons. Qed.

(** Horner's loop computes the polynomial whose coefficients are listed
    highest degree first. *)
Lemma polyval_desc W x : polyval W x = poly_desc W x.
Proof.
elim/last_ind: W => [|W c IH]; first by rewrite /poly_desc big_geq.
rewrite polyval_rcons IH /poly_desc size_rcons /= big_nat_recr //=.
rewrite nth_rcons ltnn eqxx subnn expr0 mulr1; congr (_ + _).
rewrite mulr_suml; apply: eq_big_nat => k /andP[_ ltk].
rewrite nth_rcons ltk -mulrA -exprSr; congr (_ * _ ^+ _).
by rewrite -subn1 -subnDA add1n subnSK.
Qed.

(** Dropping leading zeros does not change the value. *)
Lemma polyval_trim_zeros W x : polyval (trim_zeros_f W) x = polyval W x.
Proof.
rewrite /trim_zeros_f; elim: W => //= c W IH.
have [->|cN0] //= := eqVneq c 0.
by rewrite IH /polyval /= mul0r addr0.
Qed.

Lemma polyval_poly1d W x : polyval (poly1d W) x = polyval W x.
Proof.
rewrite /poly1d -(polyval_trim_zeros W).
by case: (trim_zeros_f W) => //=; rewrite /polyval /= mul0r addr0.
Qed.


Lemma broadcast2_same (f : R -> R -> R) (a b : seq R) :
  size a = size b -> broadcast2 f a b = Returned [seq f ab.1 ab.2 | ab <- zip a b].
Proof. by rewrite /broadcast2 => ->; rewrite eqxx. Qed.

(** An empty left operand never yields elements. *)
Lemma broadcast2_nil (f : R -> R -> R) (b D : seq R) :
  broadcast2 f [::] b = Returned D -> D = [::].
Proof. by case: b => [|y [|z b]] //= [<-]. Qed.

Lemma zip_mapr (g : R -> R) X T :
  zip T [seq g x | x <- X] = [seq (xt.2, g xt.1) | xt <- zip X T].
Proof. by elim: X T => [|x X IH] [|t T] //=; rewrite IH. Qed.

(** What [rms_error] computes on arrays of equal length, before any
    algebra: the square root of the sum of the terms
    [(t - p(x))^2 / T.size]. *)
Lemma rms_errorE X T W :
  size X = size T ->
  rms_error X T W =
  Returned (Num.sqrt (\sum_(xt <- zip X T)
                        (xt.2 - polyval (poly1d W) xt.1) ^+ 2 / (size T)%:R)).
Proof.
move=> eqXT; rewrite /rms_error /poly1d_call broadcast2_same ?size_map //=.
by rewrite zip_mapr !big_map.
Qed.

Lemma rms_error_spec_rms X T W :
  size X = size T -> rms_error X T W = Returned (spec_rms X T W).
Proof.
move=> eqXT; rewrite rms_errorE // /spec_rms eqXT.
congr (Returned (Num.sqrt _)); rewrite mulr_sumr; apply: eq_bigr => xt _.
by rewrite polyval_poly1d polyval_desc mulrC -sqrrN opprB.
Qed.

Lemma cost_rmsE X T W : cost_rms X T W = Num.sqrt 2 * spec_rms X T W.
Proof. by rewrite /cost_rms -mulrA sqrtrM ?ler0n. Qed.

(** C1.  On a non-empty sample set with as many targets as inputs,
    [rms_error] returns the plain root mean square error: the square
    root of [1/N] times the sum of the squared residuals of the
    polynomial given by [W] (highest degree first).  The factor is
    [1/N], not [2/N]: unless the error is 0 the result is not the
    [2/N]-scaled value. *)
Theorem rms_error_plain X T W :
  X <> [::] -> size X = size T ->
  rms_error X T W = Returned (spec_rms X T W)
  /\ (spec_rms X T W != 0 ->
      rms_error X T W <> Returned (cost_rms X T W)).
Proof.
move=> _ eqXT; rewrite rms_error_spec_rms //; split=> // rmsN0 [eq_rms].
have sqrt2 : Num.sqrt 2 = 1 :> R.
  by apply: (mulIf rmsN0); rewrite mul1r -cost_rmsE.
have := sqr_sqrtr (ler0n R 2); rewrite sqrt2 expr1n => /eqP.
by rewrite -[1]/(1%:R) eqr_nat.
Qed.

(** C10.  [rms_error] depends only on the multiset of (x, t) pairs:
    two sample sets, each with as many targets as inputs, whose pairs
    are permutations of each other get the same score (empty or not). *)
Theorem rms_error_perm X T X' T' W :
  size X = size T -> size X' = size T' ->
  perm_eq (zip X T) (zip X' T') ->
  rms_error X T W = rms_error X' T' W.
Proof.
move=> eqXT eqXT' permXT; rewrite !rms_errorE //.
have := perm_size permXT; rewrite !size2_zip ?eqXT ?eqXT' // => <-.
by rewrite (perm_big _ permXT).
Qed.

End RmsError.

(** * The two solvers *)

Section Solvers.

Variable R : rcfType.
Implicit Types X T W : seq R.

Lemma np_dot_cast m n k p (e : n = k) (A : 'M[R]_(m, n)) (B : 'M[R]_(k, p)) :
  np_dot A B = Returned (A *m castmx (esym e, erefl p) B).
Proof. by case: k / e B => B; rewrite np_dotE castmx_id. Qed.

Lemma cast_reshape_col n T (e : n = size T) :
  castmx (esym e, erefl 1%N) (reshape_col T) = colvec n T.
Proof. by apply/matrixP => i j; rewrite castmxE !mxE. Qed.

Lemma design_matrix_eq X M : design_matrix X M = spec_design X M.
Proof. by apply/matrixP => i j; rewrite !mxE. Qed.

(** What the plain solver computes when the shapes agree, and when they
    do not. *)
Lemma polynomial_fitE X T M :
  size X = size T ->
  polynomial_fit X T M
  = Returned (ravel (pinv (design_matrix X M) *m colvec (size X) T)).
Proof.
by move=> eqXT; rewrite /polynomial_fit (np_dot_cast eqXT) cast_reshape_col.
Qed.


Lemma polynomial_fit_regE X T M lamb :
  size X = size T ->
  polynomial_fit_reg X T M lamb = Returned (ravel (ridge_solution X T M lamb)).
Proof.
move=> eqXT; rewrite /polynomial_fit_reg np_dotE /= (np_dot_cast eqXT) /=.
by rewrite np_dotE /= cast_reshape_col np_eyeE design_matrix_eq.
Qed.


(** Entries of the penalised normal matrix: power sums of the inputs,
    plus [lambda * N] on the diagonal. *)
Lemma ridge_matrixE X M lamb (j k : 'I_M.+1) :
  ((spec_design X M)^T *m spec_design X M
     + (lamb * (size X)%:R) *: 1%:M) j k
  = \sum_(x <- X) x ^+ (j + k) + (if j == k then lamb * (size X)%:R else 0).
Proof.
rewrite !mxE (big_nth 0) big_mkord; congr (_ + _).
  by apply: eq_bigr => i _; rewrite !mxE exprD.
by case: eqP => _; rewrite ?mulr1 ?mulr0.
Qed.

(** C3.  With as many targets as inputs, the regularized solver returns
    [pinv (A^T A + lambda N I) (A^T T)] where [A] is the design matrix
    of [X] at degree [M], [I] the identity of order [M+1] and [N] the
    number of samples: the diagonal of the matrix that is
    pseudo-inverted carries [lambda * N], not [lambda]. *)
Theorem polynomial_fit_reg_spec X T M lamb :
  size X = size T ->
  polynomial_fit_reg X T M lamb = Returned (ravel (ridge_solution X T M lamb))
  /\ forall j k : 'I_M.+1,
       ((spec_design X M)^T *m spec_design X M
          + (lamb * (size X)%:R) *: 1%:M) j k
       = \sum_(x <- X) x ^+ (j + k)
         + (if j == k then lamb * (size X)%:R else 0).
Proof.
by move=> eqXT; split; [exact: polynomial_fit_regE | exact: ridge_matrixE].
Qed.


End Solvers.

(** * Inner products of columns *)

Section Columns.

Variable R : rcfType.

Lemma dotcE n (u v : 'cV[R]_n) : dotc u v = (u^T *m v) 0 0.
Proof. by rewrite mxE; apply: eq_bigr => i _; rewrite mxE. Qed.

Lemma dotcC n (u v : 'cV[R]_n) : dotc u v = dotc v u.
Proof. by apply: eq_bigr => i _; rewrite mulrC. Qed.

Lemma dotc_mull m n (A : 'M[R]_(m, n)) (u : 'cV[R]_n) (v : 'cV[R]_m) :
  dotc (A *m u) v = dotc u (A^T *m v).
Proof. by rewrite !dotcE trmx_mul mulmxA. Qed.

Lemma dotc0r n (u : 'cV[R]_n) : dotc u 0 = 0.
Proof. by rewrite dotcE mulmx0 mxE. Qed.

Lemma dotcZr n a (u v : 'cV[R]_n) : dotc u (a *: v) = a * dotc u v.
Proof. by rewrite !dotcE -scalemxAr mxE. Qed.

Lemma dotcDr n (u v w : 'cV[R]_n) : dotc u (v + w) = dotc u v + dotc u w.
Proof. by rewrite !dotcE mulmxDr mxE. Qed.

Lemma sqn_ge0 n (v : 'cV[R]_n) : 0 <= sqn v.
Proof. by apply: sumr_ge0 => i _; rewrite -expr2 sqr_ge0. Qed.

Lemma sqn_eq0 n (v : 'cV[R]_n) : sqn v = 0 -> v = 0.
Proof.
move=> v0; apply: gram_tr_eq0; apply/matrixP => i j.
by rewrite !ord1 -dotcE [RHS]mxE.
Qed.

Lemma sqnD n (u v : 'cV[R]_n) : sqn (u + v) = sqn u + 2 * dotc u v + sqn v.
Proof.
rewrite /sqn /dotc mulr_sumr -!big_split /=; apply: eq_bigr => i _.
by rewrite !mxE; ring.
Qed.


End Columns.

(** * Least squares and least norm *)

Section LeastSquares.

Variable R : rcfType.
Variables (m n : nat) (A : 'M[R]_(m, n)) (T : 'cV[R]_m).

Let W := pinv A *m T.




End LeastSquares.

(** * Properties of the plain solver *)

Section PlainSolver.

Variable R : rcfType.
Implicit Types X T W V : seq R.

Lemma colvec_ravel n (W : 'cV[R]_n) : colvec n (ravel W) = W.
Proof. by apply/matrixP => i j; rewrite mxE ord1 nth_ravel_col. Qed.



Lemma norm2_sqn n V : size V = n -> norm2 V = Num.sqrt (sqn (colvec n V)).
Proof.
move=> sizeV; rewrite /norm2 (big_nth 0) sizeV big_mkord; congr Num.sqrt.
by apply: eq_bigr => i _; rewrite !mxE expr2.
Qed.


(** At degree 0 the design matrix is a column of ones; its
    pseudo-inverse is the row of entries [1/N]. *)
Lemma gram_design0 X :
  (design_matrix X 0)^T *m design_matrix X 0 = (size X)%:R%:M.
Proof.
apply/matrixP => i j; rewrite !mxE !ord1 /= mulr1n.
under eq_bigr => k _ do rewrite !mxE expr0 mulr1.
by rewrite sumr_const card_ord.
Qed.

Lemma pinv_design0 X :
  X <> [::] ->
  pinv (design_matrix X 0) = (size X)%:R^-1 *: (design_matrix X 0)^T.
Proof.
move=> Xn0; have N0 : (size X)%:R != 0 :> R.
  by rewrite pnatr_eq0; case: X Xn0.
apply: pinv_uniq; move: (gram_design0 X); set A := design_matrix X 0 => AA.
split.
- by rewrite -scalemxAr -scalemxAl -mulmxA AA mul_mx_scalar scalerA mulVf ?scale1r.
- by rewrite -[_ *: _ *m A]scalemxAl AA scale_scalar_mx mulVf // mul1mx.
- by rewrite -scalemxAr linearZ /= trmx_gramr.
- by rewrite -scalemxAl linearZ /= trmx_gram.
Qed.

(** C7.  At degree 0, on a non-empty sample set with as many targets as
    inputs, the plain solver returns exactly one coefficient, the mean
    of the targets. *)
Theorem polynomial_fit_degree0 X T :
  X <> [::] -> size X = size T ->
  polynomial_fit X T 0 = Returned [:: mean T].
Proof.
move=> Xn0 eqXT; rewrite polynomial_fitE // pinv_design0 // ravel_col.
rewrite enum_ordSl enum_ord0 /= -scalemxAl mxE /mean mulrC -eqXT.
congr (Returned [:: _ * _]); rewrite mxE (big_nth 0) -eqXT big_mkord.
by apply: eq_bigr => i _; rewrite !mxE expr0 mul1r.
Qed.




End PlainSolver.

(** * Properties of the regularized solver *)

Section Resolvent.

Variable R : rcfType.
Variables (n : nat) (B1 B2 : 'M[R]_n) (d : R).
Hypothesis B21 : B2 = B1 + d *: 1%:M.
Hypothesis uB2 : B2 \in unitmx.

Lemma mulmx_shift (M : 'M[R]_n) (c : R) (u : 'cV[R]_n) :
  (M + c *: 1%:M) *m u = M *m u + c *: u.
Proof. by rewrite mulmxDl -scalemxAl mul1mx. Qed.



End Resolvent.

Section Ridge.

Variable R : rcfType.
Variables (m n : nat) (A : 'M[R]_(m, n)) (t : 'cV[R]_m).

Let G : 'M[R]_n := A^T *m A.
Let b : 'cV[R]_n := A^T *m t.
Let B (mu : R) : 'M[R]_n := G + mu *: 1%:M.
Let ridge (mu : R) : 'cV[R]_n := pinv (B mu) *m b.

Lemma ridge_quad mu (u : 'cV[R]_n) :
  dotc u (B mu *m u) = sqn (A *m u) + mu * sqn u.
Proof.
rewrite /B mulmxDl dotcDr -scalemxAl mul1mx dotcZr; congr (_ + _).
by rewrite /G -mulmxA -dotc_mull.
Qed.

Lemma ridge_sym mu : (B mu)^T = B mu.
Proof. by rewrite /B linearD linearZ /= trmx1 trmx_gram. Qed.

(** A positive penalty makes the normal matrix invertible. *)
Lemma ridge_unit mu : 0 < mu -> B mu \in unitmx.
Proof.
move=> mu_gt0; rewrite -row_free_unit; apply: inj_row_free => v vB0.
apply: trmx_inj; rewrite trmx0; apply: sqn_eq0; apply/eqP.
have /eqP : sqn (A *m v^T) + mu * sqn v^T = 0.
  by rewrite -ridge_quad -ridge_sym -trmx_mul vB0 trmx0 dotc0r.
rewrite paddr_eq0 ?sqn_ge0 ?mulr_ge0 ?sqn_ge0 1?ltW // => /andP[_].
by rewrite mulf_eq0 gt_eqF.
Qed.

(** The ridge solution solves the penalised normal equations, also at
    penalty 0 where the matrix may be singular. *)
Lemma ridge_solves mu : 0 <= mu -> B mu *m ridge mu = b.
Proof.
rewrite le_eqVlt => /predU1P[<-|/ridge_unit uB]; last first.
  by rewrite /ridge pinv_unit // mulmxA mulmxV // mul1mx.
have -> : ridge 0 = pinv A *m t.
  rewrite /ridge /B scale0r addr0 /b -[pinv A]pinv_gram -/G.
  by move: (pinv G) => P; rewrite mulmxA.
rewrite /B scale0r addr0 /b /G.
by move: (pinv A) (normal_pinv A) => P nP; rewrite mulmxA nP.
Qed.


End Ridge.

Section Regularized.

Variable R : rcfType.
Implicit Types X T W : seq R.


Lemma polynomial_fit_nil M :
  polynomial_fit [::] [::] M = Returned (nseq M.+1 (0 : R)).
Proof. by rewrite polynomial_fitE // [pinv _]thinmx0 mul0mx ravel_col0. Qed.

Lemma polynomial_fit_reg_nil M (lamb : R) :
  polynomial_fit_reg [::] [::] M lamb = Returned (nseq M.+1 0).
Proof.
rewrite polynomial_fit_regE // /ridge_solution.
by rewrite [colvec _ _]flatmx0 !mulmx0 ravel_col0.
Qed.

Lemma rms_error_nil W : rms_error [::] [::] W = Returned 0.
Proof. by rewrite rms_errorE //= big_nil sqrtr0. Qed.

(** C9, as the notebook behaves.  No function checks for empty input
    and none raises on it: both solvers return [M+1] zero coefficients
    and the evaluator returns 0. *)
Theorem empty_sample_set M (lamb : R) W :
  [/\ polynomial_fit [::] [::] M = Returned (nseq M.+1 (0 : R)),
      polynomial_fit_reg [::] [::] M lamb = Returned (nseq M.+1 0)
    & rms_error [::] [::] W = Returned 0].
Proof.
split; [exact: polynomial_fit_nil|exact: polynomial_fit_reg_nil|].
exact: rms_error_nil.
Qed.

End Regularized.

(** * Concrete instances over the real algebraic numbers *)

(** C9, as the specification states it, fails: on the empty sample set
    at degree 0 no function raises [InvalidInput]. *)
Lemma empty_input_not_rejected :
  [/\ polynomial_fit no_samples no_samples 0 <> Raised InvalidInput,
      polynomial_fit_reg no_samples no_samples 0 0 <> Raised InvalidInput
    & rms_error no_samples no_samples [::] <> Raised InvalidInput].
Proof.
by rewrite polynomial_fit_nil polynomial_fit_reg_nil rms_error_nil.
Qed.

Lemma rms_error_plain_witness :
  [/\ line_X <> [::], size line_X = size line_T
    & rms_error line_X line_T [:: 1; 0]
      = Returned (spec_rms line_X line_T [:: 1; 0])
      /\ (spec_rms line_X line_T [:: 1; 0] != 0 ->
          rms_error line_X line_T [:: 1; 0]
          <> Returned (cost_rms line_X line_T [:: 1; 0]))].
Proof. by split; [| |apply: rms_error_plain]. Defined.

Lemma rms_error_perm_witness :
  [/\ size line_X = size line_T,
      size (rev line_X) = size (rev line_T),
      perm_eq (zip line_X line_T) (zip (rev line_X) (rev line_T))
    & rms_error line_X line_T [:: 1; 0]
      = rms_error (rev line_X) (rev line_T) [:: 1; 0]].
Proof.
have perm01 : perm_eq (zip line_X line_T) (zip (rev line_X) (rev line_T)).
  by rewrite /= (perm_catC [:: (0, 0)] [:: (1, 1)]).
by split=> //; apply: rms_error_perm.
Defined.

Lemma polynomial_fit_reg_spec_witness :
  size line_X = size line_T
  /\ (polynomial_fit_reg line_X line_T 1 1
       = Returned (ravel (ridge_solution line_X line_T 1 1))
      /\ forall j k : 'I_2,
           ((spec_design line_X 1)^T *m spec_design line_X 1
              + (1 * (size line_X)%:R) *: 1%:M) j k
           = \sum_(x <- line_X) x ^+ (j + k)
             + (if j == k then 1 * (size line_X)%:R else 0)).
Proof. by split; [|apply: polynomial_fit_reg_spec]. Defined.



Lemma polynomial_fit_degree0_witness :
  [/\ line_X <> [::], size line_X = size line_T
    & polynomial_fit line_X line_T 0 = Returned [:: mean line_T]].
Proof. by split; [| |apply: polynomial_fit_degree0]. Defined.


(** * Further properties: errors and broadcasting *)

Section Raising.

Variable R : rcfType.
Implicit Types X T W : seq R.



Lemma broadcast2_raises (f : R -> R -> R) (a b : seq R) :
  broadcast2 f a b = Raised ValueError
  <-> ~~ [|| size a == size b, size a == 1%N | size b == 1%N].
Proof.
rewrite /broadcast2; case: ifP => //= _.
by case: a => [|x [|x' a]]; case: b => [|y [|y' b]].
Qed.

(** X3.  The evaluator raises exactly when [X] and [T] differ in length
    and neither has length 1: NumPy broadcasts a single target, or the
    fitted value at a single input, against the other array. *)
Theorem rms_error_raises X T W :
  rms_error X T W = Raised ValueError
  <-> ~~ [|| size X == size T, size T == 1%N | size X == 1%N].
Proof.
have := broadcast2_raises (fun t y => t - y) T (poly1d_call (poly1d W) X).
rewrite size_map [size T == size X]eq_sym /rms_error => -[raises_cond cond_raises].
split=> [|/cond_raises -> //].
by case: broadcast2 raises_cond => //= e raises_cond [eqe]; apply: raises_cond; rewrite eqe.
Qed.

(** X4.  With a single target [t] the evaluator does not raise: the
    target is broadcast against every input and, [T.size] being 1, the
    result is the root of the sum (not of the mean) of the squared
    residuals. *)
Theorem rms_error_scalar_target X (t : R) W :
  rms_error X [:: t] W
  = Returned (Num.sqrt (\sum_(x <- X) (poly_desc W x - t) ^+ 2)).
Proof.
have term x : (t - polyval (poly1d W) x) ^+ 2 / 1%:R = (poly_desc W x - t) ^+ 2.
  by rewrite divr1 polyval_poly1d polyval_desc -sqrrN opprB.
rewrite /rms_error /poly1d_call /broadcast2 size_map /=.
case: X => [|x [|x' X]] /=; rewrite ?big_nil ?big_cons ?big_map ?term.
- by [].
- by rewrite !big_nil.
- by under eq_bigr do rewrite term.
Qed.

Lemma sum_zip_nat (F : R -> R -> R) X T :
  size X = size T ->
  \sum_(xt <- zip X T) F xt.1 xt.2
  = \sum_(0 <= i < size X) F (nth 0 X i) (nth 0 T i).
Proof.
move=> eqXT; rewrite (big_nth (0, 0)) size1_zip ?eqXT //.
by apply: eq_big_nat => i /andP[_ ltiT]; rewrite nth_zip.
Qed.



End Raising.

(** * Further properties of the plain solver *)

Section PlainSolverMore.

Variable R : rcfType.
Implicit Types X T W V C : seq R.














End PlainSolverMore.

(** * Further properties of the regularized solver *)

Section RidgeCost.

Variable R : rcfType.
Variables (m n : nat) (A : 'M[R]_(m, n)) (t : 'cV[R]_m).

Let G : 'M[R]_n := A^T *m A.
Let b : 'cV[R]_n := A^T *m t.
Let B (mu : R) : 'M[R]_n := G + mu *: 1%:M.
Let ridge (mu : R) : 'cV[R]_n := pinv (B mu) *m b.

Lemma sqnZ k (a : R) (v : 'cV[R]_k) : sqn (a *: v) = a ^+ 2 * sqn v.
Proof. by rewrite /sqn dotcZr dotcC dotcZr mulrA expr2. Qed.



(** The penalty bounds the solution: [mu^2 |W|^2 <= |A^T t|^2]. *)
Lemma ridge_norm_bound mu : 0 <= mu -> mu ^+ 2 * sqn (ridge mu) <= sqn b.
Proof.
move=> mu_ge0; move: (ridge_solves A t mu_ge0).
rewrite -/G -/b -/(B mu) -/(ridge mu); move: (ridge mu) => w <-.
rewrite mulmx_shift sqnD sqnZ lerDr addr_ge0 ?sqn_ge0 //.
rewrite dotcZr /G -mulmxA dotcC -dotc_mull mulr_ge0 ?ler0n // mulr_ge0 //.
exact: sqn_ge0.
Qed.


End RidgeCost.

Section RegularizedMore.

Variable R : rcfType.
Implicit Types X T W V : seq R.




Lemma colvec_moments X T M :
  size X = size T ->
  colvec M.+1 (moments X T M) = (spec_design X M)^T *m colvec (size X) T.
Proof.
move=> eqXT; apply/matrixP => j k; rewrite ord1 !mxE.
rewrite (nth_map 0%N) ?size_iota // nth_iota // add0n.
rewrite (sum_zip_nat (fun x t => x ^+ j * t)) // big_mkord.
by apply: eq_bigr => i _; rewrite !mxE.
Qed.

(** X11.  For [lambda >= 0] the norm of the returned coefficients,
    times [lambda * N], is at most the norm of the right-hand side
    [A^T T] of the normal equations: the coefficients shrink at least
    like [1 / lambda]. *)
Theorem polynomial_fit_reg_bound X T M (lamb : R) :
  size X = size T -> 0 <= lamb ->
  exists W,
    polynomial_fit_reg X T M lamb = Returned W
    /\ lamb * (size X)%:R * norm2 W <= norm2 (moments X T M).
Proof.
move=> eqXT lamb_ge0; exists (ravel (ridge_solution X T M lamb)).
split; first exact: polynomial_fit_regE.
have mu_ge0 : 0 <= lamb * (size X)%:R by rewrite mulr_ge0 ?ler0n.
rewrite !(@norm2_sqn _ M.+1) ?size_ravel_col ?size_map ?size_iota //.
rewrite colvec_ravel colvec_moments // -[X in X * _]ger0_norm // -sqrtr_sqr.
by rewrite -sqrtrM ?sqr_ge0 //; apply/ler_wsqrtr/ridge_norm_bound.
Qed.


End RegularizedMore.

(** * The model-selection cell *)

Section ModelSelection.

Variable R : rcfType.
Implicit Types X T W : seq R.

(** The scan keeps the first smallest entry.  [s] is the whole array,
    [i] the position the scan has reached. *)
Lemma argmin_fromP (s : seq R) i besti best :
  (besti < i)%N -> (i <= size s)%N -> best = nth 0 s besti ->
  (forall j, (j < i)%N -> best <= nth 0 s j) ->
  (forall j, (j < besti)%N -> best < nth 0 s j) ->
  let k := argmin_from besti best i (drop i s) in
  [/\ (k < size s)%N,
      forall j, (j < size s)%N -> nth 0 s k <= nth 0 s j
    & forall j, (j < k)%N -> nth 0 s k < nth 0 s j].
Proof.
move eq_d: (size s - i)%N => d.
elim: d i besti best eq_d
  => [|d IH] i besti best eq_d lt_bi le_is best_eq le_best lt_best.
  have eq_is : i = size s.
    by apply/eqP; rewrite eqn_leq le_is -subn_eq0 eq_d.
  rewrite drop_oversize ?eq_is //= -eq_is; split=> [|j ltj|j ltj].
  - exact: lt_bi.
  - by rewrite -best_eq le_best.
  - by rewrite -best_eq lt_best.
have lt_is : (i < size s)%N by rewrite -subn_gt0 eq_d.
rewrite (drop_nth 0 lt_is) /=.
have eq_d' : (size s - i.+1)%N = d by rewrite subnS eq_d.
case: ltP => [lt_x|le_x]; apply: IH => //.
- move=> j; rewrite ltnS leq_eqVlt => /predU1P[->//|ltji].
  by rewrite (le_trans (ltW lt_x)) // le_best.
- by move=> j ltji; rewrite (lt_le_trans lt_x) // le_best.
- exact: ltnW.
- move=> j; rewrite ltnS leq_eqVlt => /predU1P[->//|ltji]; exact: le_best.
Qed.

Lemma np_argminP (v : seq R) :
  v <> [::] ->
  exists k,
    [/\ np_argmin v = Returned k, (k < size v)%N,
        forall j, (j < size v)%N -> nth 0 v k <= nth 0 v j
      & forall j, (j < k)%N -> nth 0 v k < nth 0 v j].
Proof.
case: v => // x v _.
have [] := @argmin_fromP (x :: v) 1 0 x => // [[|j]//|].
rewrite /= drop0 => ltk lek ltk'.
by exists (argmin_from 0 x 1 v).
Qed.

Lemma polynomial_fit_coefs X T M :
  size X = size T -> polynomial_fit X T M = Returned (fit_coefs X T M).
Proof. exact: polynomial_fitE. Qed.

(** On equal lengths the loop raises nothing and collects, degree by
    degree, the train and the validation score of the fit. *)
Lemma error_sweepE (x_train y_train x_val y_val : seq R) (m : seq nat) :
  size x_train = size y_train -> size x_val = size y_val ->
  error_sweep x_train y_train x_val y_val m
  = Returned ([seq fit_score x_train y_train x_train y_train M | M <- m],
              [seq fit_score x_train y_train x_val y_val M | M <- m]).
Proof.
move=> eq_train eq_val; elim: m => //= M m ->.
by rewrite polynomial_fit_coefs //= !rms_error_spec_rms.
Qed.



(** X13.  Model selection.  With [m = range(K)], [K >= 1], and sample
    sets whose inputs and targets agree in length, the cell raises
    nothing; the degree it selects is below [K], has the smallest
    validation score among the degrees [0..K-1] and is the first degree
    with that score; the reported test error is the score of that
    degree's fit on the test set. *)
Theorem model_selection_spec
  (x_train y_train x_val y_val x_test y_test : seq R) (K : nat) :
  size x_train = size y_train -> size x_val = size y_val ->
  size x_test = size y_test -> (0 < K)%N ->
  exists best_M,
    [/\ model_selection x_train y_train x_val y_val x_test y_test K
        = Returned (best_M, fit_score x_train y_train x_test y_test best_M),
        (best_M < K)%N,
        forall M, (M < K)%N ->
          fit_score x_train y_train x_val y_val best_M
          <= fit_score x_train y_train x_val y_val M
      & forall M, (M < best_M)%N ->
          fit_score x_train y_train x_val y_val best_M
          < fit_score x_train y_train x_val y_val M].
Proof.
move=> eq_train eq_val eq_test K_gt0.
pose val := [seq fit_score x_train y_train x_val y_val M | M <- iota 0 K].
have size_val : size val = K by rewrite size_map size_iota.
have nth_val M : (M < K)%N ->
    nth 0 val M = fit_score x_train y_train x_val y_val M.
  by move=> ltMK; rewrite (nth_map 0%N) ?size_iota // nth_iota.
have [|k [argmin_val ltk le_k lt_k]] := @np_argminP val.
  by move=> val0; rewrite val0 in size_val; rewrite -size_val in K_gt0.
rewrite size_val in ltk le_k.
exists k; split=> // [|M ltMK|M ltMk].
- rewrite /model_selection error_sweepE //= -/val argmin_val /=.
  by rewrite polynomial_fit_coefs //= rms_error_spec_rms.
- by rewrite -!nth_val // le_k.
- by rewrite -!nth_val ?lt_k // (ltn_trans ltMk).
Qed.


End ModelSelection.

(** * The split cell *)

(** X15.  When the three sizes add up to the number of shuffled indexes
    and the test size is not 0, the train, validation and test index
    sets together are a rearrangement of [indexes]: every sample goes to
    exactly one set, and each set has the requested size.  (With test
    size 0, [indexes[-0:]] would be the whole array.) *)
Theorem split_indexes_partition (indexes : seq nat)
  (train_size val_size test_size : nat) :
  (train_size + val_size + test_size)%N = size indexes ->
  (0 < test_size)%N ->
  let: (train, val, test) :=
    split_indexes indexes train_size val_size test_size in
  [/\ perm_eq (train ++ val ++ test) indexes,
      size train = train_size, size val = val_size
    & size test = test_size].
Proof.
move=> size_eq test_gt0; rewrite /split_indexes /slice /slice_last.
rewrite drop0 subn0 addKn -size_eq addnK (gtn_eqF test_gt0) !size_sort.
split.
- have -> : drop (train_size + val_size) indexes
            = drop val_size (drop train_size indexes).
    by rewrite drop_drop addnC.
  set a := take _ indexes; set r := drop _ indexes.
  rewrite [X in perm_eq _ X](_ : _ = a ++ take val_size r ++ drop val_size r).
    by rewrite !cat_take_drop.
  by rewrite !perm_cat // perm_sort.
- by rewrite size_takel // -size_eq -addnA leq_addr.
- by rewrite size_takel // size_drop -size_eq -addnA addKn leq_addr.
- by rewrite size_drop -size_eq addKn.
Qed.

Lemma split_indexes_partition_witness :
  [/\ (2 + 1 + 2)%N = size [:: 3; 0; 4; 1; 2]%N, (0 < 2)%N
    & let: (train, val, test) := split_indexes [:: 3; 0; 4; 1; 2]%N 2 1 2 in
      [/\ perm_eq (train ++ val ++ test) [:: 3; 0; 4; 1; 2]%N,
          size train = 2%N, size val = 1%N & size test = 2%N]].
Proof. by split; [| |apply: split_indexes_partition]. Defined.

(** * Concrete instances of the further properties *)








Lemma polynomial_fit_reg_bound_witness :
  [/\ size line_X = size line_T, 0 <= (1 : algR)
    & exists W,
        polynomial_fit_reg line_X line_T 1 1 = Returned W
        /\ 1 * (size line_X)%:R * norm2 W <= norm2 (moments line_X line_T 1)].
Proof.
by split; [| exact: ler01 | apply: polynomial_fit_reg_bound; rewrite ?ler01].
Defined.


Lemma model_selection_spec_witness :
  [/\ size parabola_X = size parabola_T, size line_X = size line_T,
      size line_X = size line_T, (0 < 3)%N
    & exists best_M,
      [/\ model_selection parabola_X parabola_T line_X line_T line_X line_T 3
          = Returned (best_M,
                      fit_score parabola_X parabola_T line_X line_T best_M),
          (best_M < 3)%N,
          forall M, (M < 3)%N ->
            fit_score parabola_X parabola_T line_X line_T best_M
            <= fit_score parabola_X parabola_T line_X line_T M
        & forall M, (M < best_M)%N ->
            fit_score parabola_X parabola_T line_X line_T best_M
            < fit_score parabola_X parabola_T line_X line_T M]].
Proof. by split; [| | | |apply: model_selection_spec]. Defined.


(** * Uniqueness of the regularized solution *)

Section RidgeUnique.

Variable R : rcfType.
Variables (m n : nat) (A : 'M[R]_(m, n)) (t : 'cV[R]_m).

Let ridge (mu : R) : 'cV[R]_n :=
  pinv (A^T *m A + mu *: 1%:M) *m (A^T *m t).



End RidgeUnique.

Section RegularizedUnique.

Variable R : rcfType.
Implicit Types X T W V : seq R.


End RegularizedUnique.

